(** * slime_shapes: placement of shapes and their pixel masks

    A shallow embedding of [slime_shapes/shapes.py].

    - Python [int] is unbounded: it is [Z] here.
    - Python 3 true division [a / b] of two ints yields a float.  The
      development computes with exact rationals ([Q]) instead.  Binary64
      agrees with them on the quotients by 10 and by 4 of a canvas side
      below 2^53 (a quotient that is not a whole number is not rounded to
      one there), and on the half-integers and their squares that the
      circle mask computes from coordinates and sizes below 2^25.
    - [random.randint] reads a process-wide generator.  The generator is a
      tape of raw draws ([nat -> Z]) and the state threaded through the
      code is the index of the next draw.  [randrange] is the one of
      CPython 3.7 to 3.11, which takes a float that is a whole number.
    - [while True] is a loop with fuel; running out of fuel is the outcome
      [Diverged], an exception is the outcome [Raised].
    - A numpy array of shape (H, W) or (H, W, 3) is a list of H rows of W
      cells; a cell of an image is a colour (three bytes). *)

From Stdlib Require Import ZArith QArith List Bool Lia.
From Stdlib.Strings Require Import Byte.
From Stdlib Require Import Lqa.
Import ListNotations.

Local Open Scope Z_scope.

(** ** Outcomes of a computation that draws random numbers *)

Inductive exn : Type :=
| ValueError.

Inductive outcome (A : Type) : Type :=
| Returned (a : A)
| Raised (e : exn)
| Diverged.

Arguments Returned {A} a.
Arguments Raised {A} e.
Arguments Diverged {A}.

(** A computation takes the index of the next draw and, when it returns,
    gives the index it left the generator at. *)
Definition M (A : Type) : Type := nat -> outcome (A * nat).

Definition ret {A : Type} (a : A) : M A := fun k => Returned (a, k).

Definition raise {A : Type} (e : exn) : M A := fun _ => Raised e.

Definition bind {A B : Type} (c : M A) (f : A -> M B) : M B :=
  fun k =>
    match c k with
    | Returned (a, k') => f a k'
    | Raised e => Raised e
    | Diverged => Diverged
    end.

Notation "x <- c ;; k" := (bind c (fun x => k))
  (at level 61, c at next level, right associativity).

(** ** Position *)

Record Position : Type := mkPosition {
  size : Z;
  x_position : Z;
  y_position : Z
}.

(** [Position._1d_intersect]: Python's chained comparison [a <= b <= c]
    is [a <= b and b <= c]. *)
Definition _1d_intersect (x_1 size_1 x_2 size_2 : Z) : bool :=
  ((x_1 <=? x_2) && (x_2 <=? x_1 + size_1))
  || ((x_1 <=? x_2 + size_2) && (x_2 + size_2 <=? x_1 + size_2)).

(** [Position.intersects] *)
Definition intersects (self other : Position) : bool :=
  let x_intersects :=
    _1d_intersect (x_position self) (size self) (x_position other) (size other) in
  let y_intersects :=
    _1d_intersect (y_position self) (size self) (y_position other) (size other) in
  x_intersects && y_intersects.

(** The closed interval [[lo, lo + len]] contains [v]. *)
Definition within (lo len v : Z) : Prop := lo <= v <= lo + len.

(** The endpoint test in the words of the specification: an endpoint of
    the second interval lies in the first interval. *)
Definition spec_1d_intersect (x_1 size_1 x_2 size_2 : Z) : Prop :=
  within x_1 size_1 x_2 \/ within x_1 size_1 (x_2 + size_2).

(** The textbook overlap test of two closed intervals. *)
Definition closed_overlap (x_1 size_1 x_2 size_2 : Z) : Prop :=
  x_2 <= x_1 + size_1 /\ x_1 <= x_2 + size_2.

(** ** The random source *)

(** [int(q)] when the number [q] is whole, as [randrange] tests with
    [istart != start]. *)
Definition as_int (q : Q) : option Z :=
  let r := Qred q in
  if (Qden r =? 1)%positive then Some (Qnum r) else None.

Section Layout.

Variable tape : nat -> Z.

(** [Random._randbelow(n)] for [n > 0]: a number in [[0, n)]. *)
Definition _randbelow (n : Z) : M Z :=
  fun k => Returned (tape k mod n, S k).

(** [Random.randrange(start, stop)] with the default step. *)
Definition randrange (start stop : Q) : M Z :=
  match as_int start with
  | None => raise ValueError
  | Some istart =>
      match as_int stop with
      | None => raise ValueError
      | Some istop =>
          let width := istop - istart in
          if 0 <? width
          then (r <- _randbelow width ;; ret (istart + r))
          else raise ValueError
      end
  end.

(** [Random.randint(a, b)] is [randrange(a, b+1)]. *)
Definition randint (a b : Q) : M Z := randrange a (b + 1)%Q.

(** ** get_positions *)

Section GetPositions.

Variable canvas_size : Z.

Definition random_position : M Position :=
  shape_size <- randint (inject_Z canvas_size / 10)%Q (inject_Z canvas_size / 4)%Q ;;
  x_position <- randint 0%Q (inject_Z (canvas_size - shape_size)) ;;
  y_position <- randint 0%Q (inject_Z (canvas_size - shape_size)) ;;
  ret (mkPosition shape_size x_position y_position).

(** The [for existing_position in positions[1:]] loop of [add], which
    raises the flag [intersects]. *)
Definition any_intersects (new_position : Position) (positions : list Position) : bool :=
  fold_left
    (fun intersects_flag existing_position =>
       if intersects new_position existing_position then true else intersects_flag)
    (tl positions) false.

(** [add]: one round of the [while True] loop per unit of fuel.  The list
    [positions] of the enclosing function is passed in and the extended
    list handed back. *)
Fixpoint add (fuel : nat) (positions : list Position) : M (list Position) :=
  match fuel with
  | O => fun _ => Diverged
  | S fuel' =>
      new_position <- random_position ;;
      if negb (any_intersects new_position positions)
      then ret (positions ++ [new_position])
      else add fuel' positions
  end.

(** [for _ in range(count): add()] with [n] rounds left. *)
Fixpoint add_times (fuel : nat) (n : nat) (positions : list Position)
  : M (list Position) :=
  match n with
  | O => ret positions
  | S n' => positions' <- add fuel positions ;; add_times fuel n' positions'
  end.

(** [get_positions(canvas_size, count)]; [range(count)] is empty for a
    negative [count].  Each call of [add] may loop [fuel] times. *)
Definition get_positions (fuel : nat) (count : Z) : M (list Position) :=
  add_times fuel (Z.to_nat count) [mkPosition canvas_size 0 0].

End GetPositions.

End Layout.

(** A tape to run the code on: the draws 11, 48, 85, ... *)
Definition sample_tape (k : nat) : Z := Z.of_nat (k * 37 + 11).

(** The placements that [get_positions(100, 3)] returns on that tape. *)
Definition sample_placements : list Position :=
  [mkPosition 100 0 0; mkPosition 21 48 5; mkPosition 20 78 34; mkPosition 19 24 61].

(** ** What a run of [get_positions] is expected to give *)

(** A placement that [random_position] can draw on a canvas of side
    [canvas_size]: the side is a multiple of 20, so that its tenth and its
    quarter are whole numbers; the size lies between the two, which are
    then the quotients of Python's [//]; and the box lies on the canvas. *)
Definition drawn (canvas_size : Z) (p : Position) : Prop :=
  canvas_size mod 20 = 0 /\
  canvas_size / 10 <= size p <= canvas_size / 4 /\
  0 <= x_position p <= canvas_size - size p /\
  0 <= y_position p <= canvas_size - size p.

(** No placement of [l] intersects a placement at another index. *)
Definition pairwise_disjoint (l : list Position) : Prop :=
  forall (i j : nat) (p q : Position),
    i <> j -> nth_error l i = Some p -> nth_error l j = Some q ->
    intersects p q = false.



(** ** Arrays *)

Definition grid (A : Type) : Type := list (list A).

(** [a[i, j]] for indices inside the array. *)
Definition cell {A : Type} (a : grid A) (i j : nat) : option A :=
  match nth_error a i with
  | Some row => nth_error row j
  | None => None
  end.

(** [a.shape[:2]] *)
Definition shape2 {A : Type} (a : grid A) : nat * nat :=
  (length a, length (hd [] a)).

(** Every row has [w] cells and there are [h] rows. *)
Definition has_shape {A : Type} (h w : nat) (a : grid A) : Prop :=
  length a = h /\ Forall (fun row => length row = w) a.

Fixpoint imap_from {A B : Type} (k : nat) (f : nat -> A -> B) (l : list A) : list B :=
  match l with
  | [] => []
  | a :: l' => f k a :: imap_from (S k) f l'
  end.

(** Map over a list with the index of each element. *)
Definition imap {A B : Type} (f : nat -> A -> B) (l : list A) : list B :=
  imap_from 0 f l.

Fixpoint map2 {A B C : Type} (f : A -> B -> C) (l : list A) (m : list B) : list C :=
  match l, m with
  | a :: l', b :: m' => f a b :: map2 f l' m'
  | _, _ => []
  end.

(** [np.zeros((h, w), dtype=bool)] *)
Definition np_zeros (h w : nat) : grid bool := repeat (repeat false w) h.

(** A slice bound [i] on an axis of length [n], as [slice.indices] clamps
    it: a negative bound counts from the end. *)
Definition clamp (i : Z) (n : nat) : Z :=
  if i <? 0 then Z.max 0 (i + Z.of_nat n) else Z.min i (Z.of_nat n).

(** Index [i] is selected by [start:stop] on an axis of length [n]. *)
Definition in_slice (start stop : Z) (n : nat) (i : nat) : bool :=
  (clamp start n <=? Z.of_nat i) && (Z.of_nat i <? clamp stop n).

(** [base[r0:r1, c0:c1] = v] *)
Definition assign_slice {A : Type} (base : grid A) (r0 r1 c0 c1 : Z) (v : A) : grid A :=
  imap (fun i row =>
          imap (fun j old =>
                  if in_slice r0 r1 (length base) i && in_slice c0 c1 (length row) j
                  then v else old)
               row)
       base.

(** [np.mgrid[:h, :w]]: the row index and the column index of each cell. *)
Definition mgrid (h w : nat) : grid Z * grid Z :=
  (map (fun i => repeat (Z.of_nat i) w) (seq 0 h),
   repeat (map Z.of_nat (seq 0 w)) h).

(** [p < q] on rationals. *)
Definition Qltb (p q : Q) : bool := negb (Qle_bool q p).

(** [target[mask] = v] for a mask of the shape of [target]. *)
Definition assign_mask {A : Type} (target : grid A) (mask : grid bool) (v : A) : grid A :=
  map2 (map2 (fun old (m : bool) => if m then v else old)) target mask.

(** The number of true cells of a mask. *)
Definition count_true (mask : grid bool) : nat :=
  list_sum (map (fun row => length (filter (fun b => b) row)) mask).

(** ** Shapes *)

Definition Colour : Type := (byte * byte * byte)%type.

(** The default colour [np.zeros(3, dtype=np.uint8)]. *)
Definition default_colour : Colour := (x00, x00, x00).

Definition ORANGE : Colour := (xff, xa6, x00).
Definition PURPLE : Colour := (x58, x50, x8d).
Definition SALMON : Colour := (xff, x63, x61).
Definition PINK : Colour := (xbc, x57, x90).
Definition BLUE : Colour := (x00, x42, x5c).

(** The two concrete subclasses of [Shape], each with the fields
    [_position] and [_colour] that [Shape.__init__] stores. *)
Inductive Shape : Type :=
| Square (_position : Position) (_colour : Colour)
| Circle (_position : Position) (_colour : Colour).

Definition _position (self : Shape) : Position :=
  match self with Square p _ | Circle p _ => p end.

Definition _colour (self : Shape) : Colour :=
  match self with Square _ c | Circle _ c => c end.

(** [Square._mask] *)
Definition Square_mask (self_position : Position) (shape : nat * nat) (location : Z * Z)
  : grid bool :=
  let base := np_zeros (fst shape) (snd shape) in
  assign_slice base
    (fst location) (fst location + size self_position)
    (snd location) (snd location + size self_position)
    true.

(** [Circle._mask] *)
Definition Circle_mask (self_position : Position) (shape : nat * nat) (location : Z * Z)
  : grid bool :=
  let radius := (inject_Z (size self_position) / 2)%Q in
  let '(x_x, y_y) := mgrid (fst shape) (snd shape) in
  let circle :=
    map2 (map2 (fun x y =>
                  ((inject_Z x - (inject_Z (fst location) + radius)) ^ 2
                   + (inject_Z y - (inject_Z (snd location) + radius)) ^ 2)%Q))
         x_x y_y in
  map (map (fun c => Qltb c (radius ^ 2)%Q)) circle.

(** [Square.create_canvas]: an image of [size] by [size] pixels of the
    colour of the square; [np.zeros] raises [ValueError] for a negative
    dimension. *)
Definition create_canvas (self_position : Position) (self_colour : Colour)
  : outcome (grid Colour) :=
  if size self_position <? 0 then Raised ValueError
  else
    let n := Z.to_nat (size self_position) in
    let canvas := repeat (repeat default_colour n) n in
    Returned (map (map (fun _ => self_colour)) canvas).

(** The abstract method [_mask], dispatched on the class of [self]. *)
Definition _mask (self : Shape) (shape : nat * nat) (location : Z * Z) : grid bool :=
  match self with
  | Square p _ => Square_mask p shape location
  | Circle p _ => Circle_mask p shape location
  end.

(** [Shape.add_to_image]: the array [target] is changed in place; the
    function gives its new contents. *)
Definition add_to_image (self : Shape) (target : grid Colour) : grid Colour :=
  assign_mask target
    (_mask self (shape2 target)
       (x_position (_position self), y_position (_position self)))
    (_colour self).

(** * Properties *)

(** ** The intersection test *)

Lemma _1d_intersect_true (x_1 size_1 x_2 size_2 : Z) :
  _1d_intersect x_1 size_1 x_2 size_2 = true <->
  (x_1 <= x_2 <= x_1 + size_1) \/ (x_1 <= x_2 + size_2 <= x_1 + size_2).
Proof.
  unfold _1d_intersect.
  rewrite orb_true_iff, !andb_true_iff, !Z.leb_le.
  tauto.
Qed.

(** The second disjunct of the code says that the start of the first
    interval lies in the second interval. *)
Lemma _1d_intersect_starts (x_1 size_1 x_2 size_2 : Z) :
  _1d_intersect x_1 size_1 x_2 size_2 = true <->
  within x_1 size_1 x_2 \/ within x_2 size_2 x_1.
Proof.
  rewrite _1d_intersect_true. unfold within. lia.
Qed.

Lemma _1d_intersect_swap (x_1 size_1 x_2 size_2 : Z) :
  _1d_intersect x_1 size_1 x_2 size_2 = _1d_intersect x_2 size_2 x_1 size_1.
Proof.
  apply eq_true_iff_eq.
  rewrite !_1d_intersect_starts. tauto.
Qed.

Lemma intersects_swap (p q : Position) : intersects p q = intersects q p.
Proof.
  unfold intersects; cbv zeta.
  now rewrite (_1d_intersect_swap (x_position p)), (_1d_intersect_swap (y_position p)).
Qed.

Lemma intersects_true (p q : Position) :
  intersects p q = true <->
  _1d_intersect (x_position p) (size p) (x_position q) (size q) = true /\
  _1d_intersect (y_position p) (size p) (y_position q) (size q) = true.
Proof.
  unfold intersects; cbv zeta. apply andb_true_iff.
Qed.

(** C1, as the specification states it, fails: the first interval
    [[5, 7]] lies strictly inside the second interval [[0, 10]] and the
    code reports an intersection, although neither endpoint of the second
    interval lies in the first one. *)
Lemma intersect_1d_endpoints_counterexample :
  _1d_intersect 5 2 0 10 = true /\ ~ spec_1d_intersect 5 2 0 10.
Proof.
  split; [reflexivity|].
  unfold spec_1d_intersect, within. lia.
Qed.

(** C1 (amended): [_1d_intersect] returns true if and only if [x_2] lies
    in the closed interval [[x_1, x_1 + size_1]] or [x_2 + size_2] lies in
    the closed interval [[x_1, x_1 + size_2]], whose length is the second
    size. *)
Theorem intersect_1d_endpoints (x_1 size_1 x_2 size_2 : Z) :
  _1d_intersect x_1 size_1 x_2 size_2 = true <->
  within x_1 size_1 x_2 \/ within x_1 size_2 (x_2 + size_2).
Proof.
  rewrite _1d_intersect_true. unfold within. tauto.
Qed.

(** C5: for non-negative sizes the 1-D test of the code is the overlap
    test of the closed intervals [[x_1, x_1 + size_1]] and
    [[x_2, x_2 + size_2]]: [x_2 <= x_1 + size_1] and
    [x_1 <= x_2 + size_2]. *)
Theorem intersect_1d_closed_overlap (x_1 size_1 x_2 size_2 : Z) :
  0 <= size_1 -> 0 <= size_2 ->
  (_1d_intersect x_1 size_1 x_2 size_2 = true <->
   x_2 <= x_1 + size_1 /\ x_1 <= x_2 + size_2).
Proof.
  intros H1 H2. rewrite _1d_intersect_true. lia.
Qed.

(** Without the sizes being non-negative the two tests differ. *)
Lemma intersect_1d_negative_size :
  _1d_intersect 0 (-1) 0 0 = true /\ ~ closed_overlap 0 (-1) 0 0.
Proof.
  split; [reflexivity|]. unfold closed_overlap. lia.
Qed.

Lemma intersect_1d_closed_overlap_witness :
  0 <= 2 /\ 0 <= 10 /\
  (_1d_intersect 5 2 0 10 = true <-> 0 <= 5 + 2 /\ 5 <= 0 + 10).
Proof.
  split; [lia|]. split; [lia|].
  apply (intersect_1d_closed_overlap 5 2 0 10); lia.
Defined.

(** Applied to each axis: two boxes of non-negative size intersect
    exactly when both of their projections overlap. *)
Lemma intersects_overlap_2d (p q : Position) :
  0 <= size p -> 0 <= size q ->
  (intersects p q = true <->
   closed_overlap (x_position p) (size p) (x_position q) (size q) /\
   closed_overlap (y_position p) (size p) (y_position q) (size q)).
Proof.
  intros Hp Hq. rewrite intersects_true. unfold closed_overlap.
  rewrite !_1d_intersect_true. lia.
Qed.

(** C6: for placements of non-negative size, [p.intersects(q)] equals
    [q.intersects(p)]; so a candidate that intersects none of the accepted
    placements is intersected by none of them either. *)
Theorem intersects_symmetric (p q : Position) :
  0 <= size p -> 0 <= size q ->
  intersects p q = intersects q p /\
  (forall accepted : list Position,
      Forall (fun e => 0 <= size e) accepted ->
      Forall (fun e => intersects p e = false) accepted ->
      Forall (fun e => intersects e p = false) accepted).
Proof.
  intros _ _. split.
  - apply intersects_swap.
  - intros accepted _ H.
    apply Forall_impl with (2 := H).
    intros e He. now rewrite intersects_swap.
Qed.

Lemma intersects_symmetric_witness :
  intersects (mkPosition 10 0 0) (mkPosition 5 15 0)
  = intersects (mkPosition 5 15 0) (mkPosition 10 0 0).
Proof.
  apply (intersects_symmetric (mkPosition 10 0 0) (mkPosition 5 15 0)); simpl; lia.
Defined.

(** ** Runs of the monad *)

Lemma bind_returned {A B : Type} (c : M A) (f : A -> M B) (k : nat) (r : B * nat) :
  bind c f k = Returned r ->
  exists a k1, c k = Returned (a, k1) /\ f a k1 = Returned r.
Proof.
  unfold bind. destruct (c k) as [[a k1]| |]; try discriminate.
  intros H. now exists a, k1.
Qed.

Lemma ret_returned {A : Type} (a : A) (k : nat) (r : A * nat) :
  ret a k = Returned r -> r = (a, k).
Proof.
  unfold ret. congruence.
Qed.

(** ** Whole numbers among the rationals *)

Lemma as_int_sound (q : Q) (z : Z) : as_int q = Some z -> (q == inject_Z z)%Q.
Proof.
  unfold as_int; cbv zeta.
  destruct (Pos.eqb_spec (Qden (Qred q)) 1) as [Hden|]; [|discriminate].
  intros [= Hnum].
  rewrite <- (Qred_correct q).
  destruct (Qred q) as [n d]; simpl in *. subst. reflexivity.
Qed.



Lemma whole_quotient (n d z : Z) :
  0 < d -> (inject_Z n / inject_Z d == inject_Z z)%Q -> n = d * z.
Proof.
  intros Hd H.
  assert (Hd' : ~ (inject_Z d == 0)%Q).
  { unfold Qeq; simpl. lia. }
  apply (Qmult_inj_r _ _ (inject_Z d) Hd') in H.
  rewrite Qmult_comm, Qmult_div_r in H by exact Hd'.
  rewrite <- inject_Z_mult in H.
  rewrite inject_Z_injective in H. lia.
Qed.


(** ** Runs of the random source *)

Section LayoutFacts.

Variable tape : nat -> Z.

Lemma randrange_returned (start stop : Q) (k : nat) (v : Z) (k' : nat) :
  randrange tape start stop k = Returned (v, k') ->
  exists istart istop,
    (start == inject_Z istart)%Q /\ (stop == inject_Z istop)%Q /\
    istart <= v < istop.
Proof.
  unfold randrange.
  destruct (as_int start) as [istart|] eqn:Hstart; [|discriminate].
  destruct (as_int stop) as [istop|] eqn:Hstop; [|discriminate].
  cbv zeta.
  destruct (Z.ltb_spec 0 (istop - istart)) as [Hwidth|]; [|discriminate].
  unfold bind, _randbelow, ret. intros [= Hv _].
  exists istart, istop.
  split; [now apply as_int_sound|]. split; [now apply as_int_sound|].
  pose proof (Z.mod_pos_bound (tape k) (istop - istart) Hwidth). lia.
Qed.

Lemma randint_returned (a b : Q) (k : nat) (v : Z) (k' : nat) :
  randint tape a b k = Returned (v, k') ->
  exists ia ib,
    (a == inject_Z ia)%Q /\ (b == inject_Z ib)%Q /\ ia <= v <= ib.
Proof.
  unfold randint. intros H.
  apply randrange_returned in H as (ia & istop & Ha & Hb & Hv).
  exists ia, (istop - 1). split; [exact Ha|]. split; [|lia].
  unfold Z.sub. rewrite inject_Z_plus, <- Hb. simpl. ring.
Qed.



Section GetPositionsFacts.

Variable canvas_size : Z.


Lemma random_position_returned (k : nat) (p : Position) (k' : nat) :
  random_position tape canvas_size k = Returned (p, k') ->
  drawn canvas_size p.
Proof.
  unfold random_position. intros H.
  apply bind_returned in H as (s & k1 & Hs & H).
  apply bind_returned in H as (x & k2 & Hx & H).
  apply bind_returned in H as (y & k3 & Hy & H).
  apply ret_returned in H. injection H as Hp _. subst p.
  apply randint_returned in Hs as (lo & hi & Hlo & Hhi & Hs).
  apply randint_returned in Hx as (x0 & x1 & Hx0 & Hx1 & Hx).
  apply randint_returned in Hy as (y0 & y1 & Hy0 & Hy1 & Hy).
  apply (whole_quotient _ 10) in Hlo; [|lia].
  apply (whole_quotient _ 4) in Hhi; [|lia].
  change 0%Q with (inject_Z 0) in Hx0, Hy0.
  rewrite inject_Z_injective in Hx0, Hx1, Hy0, Hy1.
  unfold drawn; simpl.
  assert (canvas_size / 10 = lo) by (symmetry; apply Z.div_unique_exact; lia).
  assert (canvas_size / 4 = hi) by (symmetry; apply Z.div_unique_exact; lia).
  split; [|lia].
  apply Z.mod_divide; [lia|]. exists (hi - 2 * lo). lia.
Qed.

Lemma drawn_nonneg (p : Position) :
  drawn canvas_size p -> 0 <= canvas_size /\ 0 <= size p.
Proof.
  intros (Hmod & Hsize & _).
  apply Z.mod_divide in Hmod as [c Hc]; [|lia].
  assert (canvas_size / 10 = 2 * c)
    by (symmetry; apply Z.div_unique_exact; lia).
  assert (canvas_size / 4 = 5 * c)
    by (symmetry; apply Z.div_unique_exact; lia).
  lia.
Qed.



(** The flag of the inner loop of [add] is raised exactly when some
    placement after the first intersects the candidate. *)
Lemma any_intersects_existsb (new_position : Position) (positions : list Position) :
  any_intersects new_position positions
  = existsb (intersects new_position) (tl positions).
Proof.
  unfold any_intersects.
  change (existsb (intersects new_position) (tl positions))
    with (false || existsb (intersects new_position) (tl positions)).
  generalize false as flag.
  induction (tl positions) as [|e l IH]; intros flag; simpl.
  - now rewrite orb_false_r.
  - rewrite IH. destruct (intersects new_position e), flag; reflexivity.
Qed.

Lemma any_intersects_false (new_position : Position) (positions : list Position) :
  any_intersects new_position positions = false ->
  Forall (fun e => intersects new_position e = false) (tl positions).
Proof.
  rewrite any_intersects_existsb. intros H.
  apply Forall_forall. intros e He.
  destruct (intersects new_position e) eqn:E; [|reflexivity].
  rewrite <- H. symmetry. apply existsb_exists. now exists e.
Qed.

Lemma add_returned (fuel : nat) (positions : list Position) (k : nat)
      (positions' : list Position) (k' : nat) :
  add tape canvas_size fuel positions k = Returned (positions', k') ->
  exists new_position,
    positions' = positions ++ [new_position] /\
    drawn canvas_size new_position /\
    Forall (fun e => intersects new_position e = false) (tl positions).
Proof.
  revert k. induction fuel as [|fuel IH]; intros k; simpl; [discriminate|].
  intros H. apply bind_returned in H as (new_position & k1 & Hnew & H).
  destruct (any_intersects new_position positions) eqn:Hflag; simpl in H.
  - now apply IH in H.
  - apply ret_returned in H. injection H as -> _.
    exists new_position. split; [reflexivity|]. split.
    + now apply random_position_returned in Hnew.
    + now apply any_intersects_false.
Qed.

Lemma pairwise_disjoint_snoc (l : list Position) (new_position : Position) :
  pairwise_disjoint l ->
  Forall (fun e => intersects new_position e = false) l ->
  pairwise_disjoint (l ++ [new_position]).
Proof.
  intros Hl Hnew i j p q Hij Hi Hj.
  rewrite Forall_forall in Hnew.
  destruct (Nat.lt_ge_cases i (length l)) as [Li|Li];
    destruct (Nat.lt_ge_cases j (length l)) as [Lj|Lj].
  - rewrite nth_error_app1 in Hi, Hj by assumption.
    now apply (Hl i j).
  - rewrite nth_error_app1 in Hi by assumption.
    rewrite nth_error_app2 in Hj by assumption.
    destruct (j - length l)%nat as [|[|n]]; simpl in Hj; try discriminate.
    injection Hj as <-. rewrite intersects_swap.
    apply Hnew. now apply nth_error_In with i.
  - rewrite nth_error_app2 in Hi by assumption.
    rewrite nth_error_app1 in Hj by assumption.
    destruct (i - length l)%nat as [|[|n]]; simpl in Hi; try discriminate.
    injection Hi as <-.
    apply Hnew. now apply nth_error_In with j.
  - rewrite nth_error_app2 in Hi, Hj by assumption.
    destruct (i - length l)%nat as [|[|n]] eqn:Ei; simpl in Hi; try discriminate.
    destruct (j - length l)%nat as [|[|m]] eqn:Ej; simpl in Hj; try discriminate.
    lia.
Qed.

(** What [n] calls of [add] append to a list that already holds the
    canvas. *)
Lemma add_times_returned (fuel n : nat) (positions : list Position) (k : nat)
      (positions' : list Position) (k' : nat) :
  add_times tape canvas_size fuel n positions k = Returned (positions', k') ->
  exists added,
    positions' = positions ++ added /\
    length added = n /\
    Forall (drawn canvas_size) added /\
    (positions <> [] -> pairwise_disjoint (tl positions) ->
     pairwise_disjoint (tl positions ++ added)).
Proof.
  revert positions k. induction n as [|n IH]; intros positions k; simpl.
  - intros H. apply ret_returned in H. injection H as -> _.
    exists []. rewrite !app_nil_r. repeat split; auto.
  - intros H. apply bind_returned in H as (positions1 & k1 & Hadd & H).
    apply add_returned in Hadd as (new_position & -> & Hdrawn & Hnew).
    apply IH in H as (added & -> & Hlen & Hall & Hdisj).
    exists (new_position :: added).
    rewrite <- app_assoc. split; [reflexivity|].
    split; [simpl; congruence|]. split; [now constructor|].
    intros Hne Hpw.
    destruct positions as [|canvas others]; [congruence|].
    simpl in *.
    change (new_position :: added) with ([new_position] ++ added).
    rewrite app_assoc. apply Hdisj; [discriminate|].
    now apply pairwise_disjoint_snoc.
Qed.

(** The list that [get_positions] returns: the canvas, then the
    placements that the [Z.to_nat count] calls of [add] accepted. *)
Lemma get_positions_returned (fuel : nat) (count : Z) (k : nat)
      (positions : list Position) (k' : nat) :
  get_positions tape canvas_size fuel count k = Returned (positions, k') ->
  exists added,
    positions = mkPosition canvas_size 0 0 :: added /\
    length added = Z.to_nat count /\
    Forall (drawn canvas_size) added /\
    pairwise_disjoint added.
Proof.
  unfold get_positions. intros H.
  apply add_times_returned in H as (added & -> & Hlen & Hall & Hdisj).
  exists added. repeat split; auto.
  apply Hdisj; [discriminate|].
  intros [|i] j p q; discriminate.
Qed.


(** X19: the closed boxes of two placements at different indices above
    0 of the result are apart on the x axis or on the y axis: they do not
    even touch. *)
Lemma get_positions_boxes_apart (fuel : nat) (count : Z) (k : nat)
      (placements : list Position) (k' : nat) (i j : nat) (p q : Position) :
  get_positions tape canvas_size fuel count k = Returned (placements, k') ->
  (0 < i)%nat -> (0 < j)%nat -> i <> j ->
  nth_error placements i = Some p -> nth_error placements j = Some q ->
  ~ (closed_overlap (x_position p) (size p) (x_position q) (size q) /\
     closed_overlap (y_position p) (size p) (y_position q) (size q)).
Proof.
  intros H Hi Hj Hij Hp Hq.
  apply get_positions_returned in H as (added & -> & _ & Hall & Hdisj).
  destruct i as [|i]; [lia|]. destruct j as [|j]; [lia|]. simpl in Hp, Hq.
  rewrite Forall_forall in Hall.
  destruct (drawn_nonneg p) as [_ Sp]; [eapply Hall, nth_error_In, Hp|].
  destruct (drawn_nonneg q) as [_ Sq]; [eapply Hall, nth_error_In, Hq|].
  assert (Hnot : intersects p q = false) by (apply (Hdisj i j); auto).
  intros Hover. apply (intersects_overlap_2d p q Sp Sq) in Hover. congruence.
Qed.

(** More fuel does not change the result of a call that returned. *)
Lemma add_more_fuel (fuel extra : nat) (positions : list Position) (k : nat)
      (r : list Position * nat) :
  add tape canvas_size fuel positions k = Returned r ->
  add tape canvas_size (fuel + extra) positions k = Returned r.
Proof.
  revert k. induction fuel as [|fuel IH]; intros k; simpl; [discriminate|].
  unfold bind.
  destruct (random_position tape canvas_size k) as [[new_position k1]| |];
    try discriminate.
  destruct (negb (any_intersects new_position positions)); [trivial|].
  apply IH.
Qed.

Lemma add_times_more_fuel (fuel extra n : nat) (positions : list Position) (k : nat)
      (r : list Position * nat) :
  add_times tape canvas_size fuel n positions k = Returned r ->
  add_times tape canvas_size (fuel + extra) n positions k = Returned r.
Proof.
  revert positions k. induction n as [|n IH]; intros positions k; simpl; [trivial|].
  unfold bind.
  destruct (add tape canvas_size fuel positions k) as [[positions1 k1]| |] eqn:Hadd;
    try discriminate.
  rewrite (add_more_fuel _ extra _ _ _ Hadd). apply IH.
Qed.

Lemma get_positions_more_fuel (fuel extra : nat) (count : Z) (k : nat)
      (r : list Position * nat) :
  get_positions tape canvas_size fuel count k = Returned r ->
  get_positions tape canvas_size (fuel + extra) count k = Returned r.
Proof.
  apply add_times_more_fuel.
Qed.

End GetPositionsFacts.

End LayoutFacts.

(** ** The contract of [get_positions] *)

(** C2: when [get_positions(canvas_size, count)] returns, the placements
    at two different indices [i, j > 0] of the result do not intersect. *)
Theorem get_positions_disjoint
        (tape : nat -> Z) (canvas_size : Z) (fuel : nat) (count : Z) (k : nat)
        (placements : list Position) (k' : nat) :
  get_positions tape canvas_size fuel count k = Returned (placements, k') ->
  forall (i j : nat) (p q : Position),
    (0 < i)%nat -> (0 < j)%nat -> i <> j ->
    nth_error placements i = Some p -> nth_error placements j = Some q ->
    intersects p q = false.
Proof.
  intros H i j p q Hi Hj Hij Hp Hq.
  apply get_positions_returned in H as (added & -> & _ & _ & Hdisj).
  destruct i as [|i]; [lia|]. destruct j as [|j]; [lia|].
  simpl in Hp, Hq.
  apply (Hdisj i j); auto.
Qed.

Lemma get_positions_disjoint_witness :
  get_positions sample_tape 100 50 3 0%nat = Returned (sample_placements, 9%nat) /\
  forall (i j : nat) (p q : Position),
    (0 < i)%nat -> (0 < j)%nat -> i <> j ->
    nth_error sample_placements i = Some p ->
    nth_error sample_placements j = Some q ->
    intersects p q = false.
Proof.
  split; [vm_compute; reflexivity|].
  apply (get_positions_disjoint sample_tape 100 50 3 0%nat _ 9%nat).
  vm_compute. reflexivity.
Defined.






(** A canvas whose side is not a multiple of 10 makes the first draw
    raise [ValueError]: the bound [canvas_size / 10] of [randint] is not a
    whole number. *)
Lemma get_positions_raises_105 :
  get_positions sample_tape 105 50 1 0%nat = Raised ValueError.
Proof.
  vm_compute. reflexivity.
Qed.

(** Two placements cannot be put on a canvas of side 0: the only
    candidate is [Position(0, 0, 0)], and the second call of [add] rejects
    it for ever, whatever the tape. *)
Lemma random_position_0 (tape : nat -> Z) (k : nat) :
  random_position tape 0 k = Returned (mkPosition 0 0 0, S (S (S k))).
Proof.
  unfold random_position, randint, randrange, bind, _randbelow, ret. simpl.
  rewrite Z.mod_1_r.
  change (as_int (inject_Z (- 0) + 1)) with (Some 1). simpl.
  now rewrite !Z.mod_1_r.
Qed.

Lemma add_rejects_0 (tape : nat -> Z) (fuel : nat) (k : nat) :
  add tape 0 fuel [mkPosition 0 0 0; mkPosition 0 0 0] k = Diverged.
Proof.
  revert k. induction fuel as [|fuel IH]; intros k; [reflexivity|].
  simpl add. unfold bind. rewrite random_position_0. simpl. apply IH.
Qed.

Lemma add_accepts_first_0 (tape : nat -> Z) (fuel : nat) (k : nat) :
  add tape 0 (S fuel) [mkPosition 0 0 0] k
  = Returned ([mkPosition 0 0 0; mkPosition 0 0 0], S (S (S k))).
Proof.
  simpl add. unfold bind. now rewrite random_position_0.
Qed.

Lemma get_positions_diverges_0 (tape : nat -> Z) (fuel : nat) (k : nat) :
  get_positions tape 0 fuel 2 k = Diverged.
Proof.
  unfold get_positions. change (Z.to_nat 2) with 2%nat.
  cbn [add_times]. unfold bind.
  destruct fuel as [|fuel]; [reflexivity|].
  now rewrite add_accepts_first_0, add_rejects_0.
Qed.

(** ** Arrays *)

Lemma nth_error_imap_from {A B : Type} (f : nat -> A -> B) (l : list A) (k i : nat) :
  nth_error (imap_from k f l) i = option_map (f (k + i)%nat) (nth_error l i).
Proof.
  revert k i. induction l as [|a l IH]; intros k [|i]; simpl; try reflexivity.
  - now rewrite Nat.add_0_r.
  - rewrite IH. now rewrite Nat.add_succ_r.
Qed.

Lemma nth_error_imap {A B : Type} (f : nat -> A -> B) (l : list A) (i : nat) :
  nth_error (imap f l) i = option_map (f i) (nth_error l i).
Proof.
  unfold imap. now rewrite nth_error_imap_from.
Qed.

Lemma length_imap_from {A B : Type} (f : nat -> A -> B) (l : list A) (k : nat) :
  length (imap_from k f l) = length l.
Proof.
  revert k. induction l as [|a l IH]; intros k; simpl; [reflexivity|].
  now rewrite IH.
Qed.

Lemma length_imap {A B : Type} (f : nat -> A -> B) (l : list A) :
  length (imap f l) = length l.
Proof.
  apply length_imap_from.
Qed.

Lemma nth_error_map2 {A B C : Type} (f : A -> B -> C) (l : list A) (m : list B) (i : nat) :
  nth_error (map2 f l m) i =
  match nth_error l i, nth_error m i with
  | Some a, Some b => Some (f a b)
  | _, _ => None
  end.
Proof.
  revert m i. induction l as [|a l IH]; intros [|b m] [|i]; simpl; try reflexivity.
  - now destruct (nth_error l i).
  - apply IH.
Qed.

Lemma length_map2 {A B C : Type} (f : A -> B -> C) (l : list A) (m : list B) :
  length (map2 f l m) = Nat.min (length l) (length m).
Proof.
  revert m. induction l as [|a l IH]; intros [|b m]; simpl; try reflexivity.
  now rewrite IH.
Qed.

Lemma cell_map2 {A B C : Type} (f : A -> B -> C) (a : grid A) (b : grid B) (i j : nat) :
  cell (map2 (map2 f) a b) i j =
  match cell a i j, cell b i j with
  | Some u, Some v => Some (f u v)
  | _, _ => None
  end.
Proof.
  unfold cell. rewrite nth_error_map2.
  destruct (nth_error a i) as [ra|]; [|reflexivity].
  destruct (nth_error b i) as [rb|].
  - apply nth_error_map2.
  - now destruct (nth_error ra j).
Qed.

Lemma cell_map {A B : Type} (f : A -> B) (a : grid A) (i j : nat) :
  cell (map (map f) a) i j = option_map f (cell a i j).
Proof.
  unfold cell. rewrite nth_error_map.
  destruct (nth_error a i) as [ra|]; simpl; [|reflexivity].
  apply nth_error_map.
Qed.

Lemma has_shape_rows {A : Type} (h w : nat) (a : grid A) :
  has_shape h w a <->
  length a = h /\
  forall (i : nat) (row : list A), nth_error a i = Some row -> length row = w.
Proof.
  unfold has_shape. rewrite Forall_forall. split; intros [Hh Hw]; split; auto.
  - intros i row Hi. apply Hw. now apply nth_error_In with i.
  - intros row Hin. apply In_nth_error in Hin as [i Hi]. now apply Hw with i.
Qed.

Lemma has_shape_cell {A : Type} (h w : nat) (a : grid A) (i j : nat) :
  has_shape h w a -> (i < h)%nat -> (j < w)%nat -> exists v, cell a i j = Some v.
Proof.
  rewrite has_shape_rows. intros [Hh Hw] Hi Hj. unfold cell.
  destruct (nth_error a i) as [row|] eqn:Hrow.
  - destruct (nth_error row j) as [v|] eqn:Hv; [now exists v|].
    apply nth_error_None in Hv. rewrite (Hw i row Hrow) in Hv. lia.
  - apply nth_error_None in Hrow. lia.
Qed.

Lemma has_shape_cell_outside {A : Type} (h w : nat) (a : grid A) (i j : nat) :
  has_shape h w a -> (h <= i)%nat \/ (w <= j)%nat -> cell a i j = None.
Proof.
  rewrite has_shape_rows. intros [Hh Hw] Hij. unfold cell.
  destruct (nth_error a i) as [row|] eqn:Hrow; [|reflexivity].
  apply nth_error_None. rewrite (Hw i row Hrow).
  destruct Hij as [Hi|Hj]; [|exact Hj].
  assert (nth_error a i <> None) as Hsome by congruence.
  apply nth_error_Some in Hsome. lia.
Qed.

(** The shape that [a.shape[:2]] reads off an array. *)
Lemma has_shape_shape2 {A : Type} (h w : nat) (a : grid A) :
  has_shape h w a -> a = [] \/ shape2 a = (h, w).
Proof.
  intros [Hh Hw]. destruct a as [|row a]; [now left|right].
  unfold shape2. simpl hd. inversion Hw; subst. reflexivity.
Qed.

Lemma has_shape_np_zeros (h w : nat) : has_shape h w (np_zeros h w).
Proof.
  unfold has_shape, np_zeros. split; [apply repeat_length|].
  apply Forall_forall. intros row Hrow.
  apply repeat_spec in Hrow. subst. apply repeat_length.
Qed.

Lemma clamp_inside (i : Z) (n : nat) : 0 <= i <= Z.of_nat n -> clamp i n = i.
Proof.
  intros H. unfold clamp. destruct (Z.ltb_spec i 0); lia.
Qed.

(** A slice that lies on the axis selects the indices between its
    bounds. *)
Lemma in_slice_inside (start stop : Z) (n i : nat) :
  0 <= start <= Z.of_nat n -> 0 <= stop <= Z.of_nat n ->
  in_slice start stop n i = (start <=? Z.of_nat i) && (Z.of_nat i <? stop).
Proof.
  intros H1 H2. unfold in_slice. now rewrite !clamp_inside.
Qed.

Lemma cell_assign_slice {A : Type} (base : grid A) (r0 r1 c0 c1 : Z) (v : A) (i j : nat) :
  cell (assign_slice base r0 r1 c0 c1 v) i j =
  match nth_error base i with
  | Some row =>
      option_map
        (fun old => if in_slice r0 r1 (length base) i && in_slice c0 c1 (length row) j
                    then v else old)
        (nth_error row j)
  | None => None
  end.
Proof.
  unfold cell, assign_slice. rewrite nth_error_imap.
  destruct (nth_error base i) as [row|]; simpl; [|reflexivity].
  apply nth_error_imap.
Qed.

Lemma has_shape_assign_slice {A : Type} (h w : nat) (base : grid A)
      (r0 r1 c0 c1 : Z) (v : A) :
  has_shape h w base -> has_shape h w (assign_slice base r0 r1 c0 c1 v).
Proof.
  rewrite !has_shape_rows. intros [Hh Hw]. unfold assign_slice. split.
  - now rewrite length_imap.
  - intros i row. rewrite nth_error_imap.
    destruct (nth_error base i) as [old|] eqn:Hold; simpl; [|discriminate].
    intros [= <-]. rewrite length_imap. now apply Hw with i.
Qed.

(** ** Masks *)

Lemma cell_Square_mask (p : Position) (h w : nat) (location : Z * Z) (i j : nat) :
  (i < h)%nat -> (j < w)%nat ->
  cell (Square_mask p (h, w) location) i j =
  Some (in_slice (fst location) (fst location + size p) h i
        && in_slice (snd location) (snd location + size p) w j).
Proof.
  intros Hi Hj. unfold Square_mask; cbv zeta. simpl fst; simpl snd.
  rewrite cell_assign_slice. unfold np_zeros at 1.
  rewrite nth_error_repeat by exact Hi.
  rewrite nth_error_repeat by exact Hj.
  unfold np_zeros. rewrite !repeat_length. simpl.
  now destruct (in_slice _ _ h i && in_slice _ _ w j).
Qed.

Lemma has_shape_Square_mask (p : Position) (shape : nat * nat) (location : Z * Z) :
  has_shape (fst shape) (snd shape) (Square_mask p shape location).
Proof.
  unfold Square_mask; cbv zeta.
  apply has_shape_assign_slice, has_shape_np_zeros.
Qed.

Lemma cell_mgrid (h w i j : nat) :
  (i < h)%nat -> (j < w)%nat ->
  cell (fst (mgrid h w)) i j = Some (Z.of_nat i) /\
  cell (snd (mgrid h w)) i j = Some (Z.of_nat j).
Proof.
  intros Hi Hj. unfold mgrid, cell; simpl fst; simpl snd.
  apply Nat.ltb_lt in Hi as Hi', Hj as Hj'.
  rewrite nth_error_map, nth_error_seq, Hi'. simpl.
  rewrite (nth_error_repeat _ Hi).
  rewrite nth_error_map, nth_error_seq, Hj'. simpl.
  split; [now apply nth_error_repeat | reflexivity].
Qed.

Lemma has_shape_mgrid (h w : nat) :
  has_shape h w (fst (mgrid h w)) /\ has_shape h w (snd (mgrid h w)).
Proof.
  unfold mgrid; simpl fst; simpl snd. split; apply has_shape_rows; split.
  - now rewrite length_map, length_seq.
  - intros i row. rewrite nth_error_map.
    destruct (nth_error (seq 0 h) i); simpl; [|discriminate].
    intros [= <-]. apply repeat_length.
  - apply repeat_length.
  - intros i row Hrow. apply nth_error_In, repeat_spec in Hrow. subst.
    now rewrite length_map, length_seq.
Qed.

Lemma has_shape_map2 {A B C : Type} (f : A -> B -> C) (h w : nat)
      (a : grid A) (b : grid B) :
  has_shape h w a -> has_shape h w b -> has_shape h w (map2 (map2 f) a b).
Proof.
  rewrite !has_shape_rows. intros [Ha Wa] [Hb Wb]. split.
  - rewrite length_map2. lia.
  - intros i row. rewrite nth_error_map2.
    destruct (nth_error a i) as [ra|] eqn:Era; [|discriminate].
    destruct (nth_error b i) as [rb|] eqn:Erb; [|discriminate].
    intros [= <-]. rewrite length_map2, (Wa i ra Era), (Wb i rb Erb). lia.
Qed.

Lemma has_shape_map {A B : Type} (f : A -> B) (h w : nat) (a : grid A) :
  has_shape h w a -> has_shape h w (map (map f) a).
Proof.
  rewrite !has_shape_rows. intros [Ha Wa]. split.
  - now rewrite length_map.
  - intros i row. rewrite nth_error_map.
    destruct (nth_error a i) as [ra|] eqn:Era; simpl; [|discriminate].
    intros [= <-]. rewrite length_map. now apply Wa with i.
Qed.

Lemma Qltb_lt (p q : Q) : Qltb p q = true <-> (p < q)%Q.
Proof.
  unfold Qltb. rewrite negb_true_iff, <- not_true_iff_false, Qle_bool_iff.
  split; [apply Qnot_le_lt | apply Qlt_not_le].
Qed.

Lemma cell_Circle_mask (p : Position) (h w : nat) (location : Z * Z) (i j : nat) :
  (i < h)%nat -> (j < w)%nat ->
  cell (Circle_mask p (h, w) location) i j =
  Some (Qltb
          ((inject_Z (Z.of_nat i) - (inject_Z (fst location) + inject_Z (size p) / 2)) ^ 2
           + (inject_Z (Z.of_nat j) - (inject_Z (snd location) + inject_Z (size p) / 2)) ^ 2)
          ((inject_Z (size p) / 2) ^ 2))%Q.
Proof.
  intros Hi Hj. unfold Circle_mask; cbv zeta. simpl fst; simpl snd.
  destruct (cell_mgrid h w i j Hi Hj) as [Hx Hy].
  destruct (mgrid h w) as [x_x y_y]; simpl in Hx, Hy.
  now rewrite cell_map, cell_map2, Hx, Hy.
Qed.

Lemma has_shape_Circle_mask (p : Position) (shape : nat * nat) (location : Z * Z) :
  has_shape (fst shape) (snd shape) (Circle_mask p shape location).
Proof.
  unfold Circle_mask; cbv zeta.
  destruct (has_shape_mgrid (fst shape) (snd shape)) as [Hx Hy].
  destruct (mgrid (fst shape) (snd shape)) as [x_x y_y]; simpl in Hx, Hy.
  now apply has_shape_map, has_shape_map2.
Qed.

Lemma has_shape_mask (self : Shape) (shape : nat * nat) (location : Z * Z) :
  has_shape (fst shape) (snd shape) (_mask self shape location).
Proof.
  destruct self; [apply has_shape_Square_mask | apply has_shape_Circle_mask].
Qed.

(** C7: on a canvas that contains the box of its placement, the mask of a
    square is true exactly at the pixels [(i, j)] with [x <= i < x + size]
    and [y <= j < y + size]; on a canvas of 20 by 20 pixels the mask of
    [Square(Position(4, 2, 2))] has 16 true pixels, all of them with both
    coordinates in the range from 2 to 5. *)
Theorem Square_mask_box :
  (forall (p : Position) (c : Colour) (h w : nat),
      0 <= size p ->
      0 <= x_position p -> x_position p + size p <= Z.of_nat h ->
      0 <= y_position p -> y_position p + size p <= Z.of_nat w ->
      forall i j : nat,
        (i < h)%nat -> (j < w)%nat ->
        cell (_mask (Square p c) (h, w) (x_position p, y_position p)) i j
        = Some ((x_position p <=? Z.of_nat i) && (Z.of_nat i <? x_position p + size p)
                && ((y_position p <=? Z.of_nat j)
                    && (Z.of_nat j <? y_position p + size p)))) /\
  (forall c : Colour,
      let mask := _mask (Square (mkPosition 4 2 2) c) (20%nat, 20%nat) (2, 2) in
      has_shape 20 20 mask /\
      count_true mask = 16%nat /\
      forall i j : nat,
        cell mask i j = Some true -> (2 <= i < 6)%nat /\ (2 <= j < 6)%nat).
Proof.
  assert (General :
    forall (p : Position) (c : Colour) (h w : nat),
      0 <= size p ->
      0 <= x_position p -> x_position p + size p <= Z.of_nat h ->
      0 <= y_position p -> y_position p + size p <= Z.of_nat w ->
      forall i j : nat,
        (i < h)%nat -> (j < w)%nat ->
        cell (_mask (Square p c) (h, w) (x_position p, y_position p)) i j
        = Some ((x_position p <=? Z.of_nat i) && (Z.of_nat i <? x_position p + size p)
                && ((y_position p <=? Z.of_nat j)
                    && (Z.of_nat j <? y_position p + size p)))).
  { intros p c h w Hs Hx0 Hx1 Hy0 Hy1 i j Hi Hj. simpl _mask.
    rewrite cell_Square_mask by assumption. simpl fst; simpl snd.
    now rewrite !in_slice_inside by lia. }
  split; [exact General|].
  intros c mask.
  assert (Hshape : has_shape 20 20 mask)
    by apply (has_shape_mask (Square (mkPosition 4 2 2) c) (20%nat, 20%nat)).
  split; [exact Hshape|]. split; [reflexivity|].
  intros i j Hcell.
  destruct (Nat.lt_ge_cases i 20) as [Hi|Hi];
    [|rewrite (has_shape_cell_outside 20 20) in Hcell by auto; discriminate].
  destruct (Nat.lt_ge_cases j 20) as [Hj|Hj];
    [|rewrite (has_shape_cell_outside 20 20) in Hcell by auto; discriminate].
  unfold mask in Hcell.
  rewrite (General (mkPosition 4 2 2) c 20%nat 20%nat) in Hcell
    by (simpl; lia).
  simpl in Hcell. injection Hcell as Hcell.
  rewrite !andb_true_iff, !Z.leb_le, !Z.ltb_lt in Hcell. lia.
Qed.

Lemma Square_mask_box_witness :
  cell (_mask (Square (mkPosition 4 2 2) ORANGE) (20%nat, 20%nat) (2, 2)) 3 5 = Some true /\
  cell (_mask (Square (mkPosition 4 2 2) ORANGE) (20%nat, 20%nat) (2, 2)) 3 6 = Some false.
Proof.
  split.
  - apply (proj1 Square_mask_box (mkPosition 4 2 2) ORANGE 20%nat 20%nat);
      simpl; lia.
  - apply (proj1 Square_mask_box (mkPosition 4 2 2) ORANGE 20%nat 20%nat);
      simpl; lia.
Defined.



(** A pixel that lies on the circle is not part of the mask. *)
Lemma Circle_mask_boundary (c : Colour) :
  cell (_mask (Circle (mkPosition 10 0 0) c) (12%nat, 12%nat) (0, 0)) 0 5 = Some false.
Proof.
  reflexivity.
Qed.

(** ** Painting *)

Lemma cell_assign_mask {A : Type} (target : grid A) (mask : grid bool) (v : A) (i j : nat) :
  cell (assign_mask target mask v) i j =
  match cell target i j, cell mask i j with
  | Some old, Some m => Some (if m then v else old)
  | _, _ => None
  end.
Proof.
  unfold assign_mask. now rewrite cell_map2.
Qed.

Lemma has_shape_assign_mask {A : Type} (h w : nat) (target : grid A)
      (mask : grid bool) (v : A) :
  has_shape h w target -> has_shape h w mask ->
  has_shape h w (assign_mask target mask v).
Proof.
  apply has_shape_map2.
Qed.

Lemma has_shape_empty {A : Type} (w w' : nat) (a : grid A) :
  has_shape 0 w a -> has_shape 0 w' a.
Proof.
  intros [Hh _]. destruct a; [|discriminate]. split; [reflexivity|constructor].
Qed.

(** A mask computed for the shape of the target leaves that shape as it
    is, whatever the rows of the target look like. *)
Lemma shape2_assign_mask {A : Type} (target : grid A) (mask : grid bool) (v : A) :
  has_shape (fst (shape2 target)) (snd (shape2 target)) mask ->
  shape2 (assign_mask target mask v) = shape2 target.
Proof.
  unfold shape2, assign_mask. simpl fst; simpl snd. intros [Hh Hw].
  destruct target as [|row target]; [reflexivity|].
  destruct mask as [|mrow mask]; [discriminate|].
  inversion Hw as [|? ? Hrow _]; subst. simpl in *.
  rewrite !length_map2. f_equal; lia.
Qed.

Lemma map2_twice {A B : Type} (f : A -> B -> A) (l : list A) (m : list B) :
  (forall a b, f (f a b) b = f a b) -> map2 f (map2 f l m) m = map2 f l m.
Proof.
  intros Hf. revert m. induction l as [|a l IH]; intros [|b m]; simpl;
    try reflexivity.
  now rewrite Hf, IH.
Qed.

Lemma assign_mask_twice {A : Type} (target : grid A) (mask : grid bool) (v : A) :
  assign_mask (assign_mask target mask v) mask v = assign_mask target mask v.
Proof.
  unfold assign_mask. apply map2_twice. intros row mrow.
  apply map2_twice. now intros old [|].
Qed.

(** C9: [add_to_image] gives every pixel at which the mask of the shape
    is true the colour of the shape and leaves every other pixel, and the
    shape of the buffer, as they were. *)
Theorem add_to_image_frame (self : Shape) (target : grid Colour) (h w : nat) :
  has_shape h w target ->
  let mask := _mask self (shape2 target)
                    (x_position (_position self), y_position (_position self)) in
  has_shape h w (add_to_image self target) /\
  has_shape h w mask /\
  forall i j : nat,
    (cell mask i j = Some true ->
     cell (add_to_image self target) i j = Some (_colour self)) /\
    (cell mask i j <> Some true ->
     cell (add_to_image self target) i j = cell target i j).
Proof.
  intros Htarget mask.
  assert (Hmask : has_shape h w mask).
  { destruct (has_shape_shape2 h w target Htarget) as [->|Hsh].
    - destruct Htarget as [<- _].
      apply (has_shape_empty 0). apply (has_shape_mask self (0%nat, 0%nat)).
    - unfold mask. rewrite Hsh. apply (has_shape_mask self (h, w)). }
  split; [now apply has_shape_assign_mask|]. split; [exact Hmask|].
  intros i j. unfold add_to_image. fold mask.
  rewrite cell_assign_mask.
  destruct (Nat.lt_ge_cases i h) as [Hi|Hi];
    [destruct (Nat.lt_ge_cases j w) as [Hj|Hj]|].
  - destruct (has_shape_cell h w target i j Htarget Hi Hj) as [old ->].
    destruct (has_shape_cell h w mask i j Hmask Hi Hj) as [m ->].
    split; [now intros [= ->]|].
    intros Hm. destruct m; [congruence|reflexivity].
  - rewrite (has_shape_cell_outside h w target) by auto.
    rewrite (has_shape_cell_outside h w mask) by auto.
    split; [discriminate|reflexivity].
  - rewrite (has_shape_cell_outside h w target) by auto.
    rewrite (has_shape_cell_outside h w mask) by auto.
    split; [discriminate|reflexivity].
Qed.

(** An orange canvas of 6 by 6 pixels. *)
Lemma orange_canvas :
  create_canvas (mkPosition 6 0 0) ORANGE = Returned (repeat (repeat ORANGE 6) 6) /\
  has_shape 6 6 (repeat (repeat ORANGE 6) 6).
Proof.
  split; [reflexivity|]. split; [reflexivity|]. repeat constructor.
Qed.

Lemma add_to_image_frame_witness :
  let target := repeat (repeat ORANGE 6) 6 in
  let circle := Circle (mkPosition 4 1 1) BLUE in
  cell (add_to_image circle target) 3 3 = Some BLUE /\
  cell (add_to_image circle target) 0 0 = cell target 0 0.
Proof.
  intros target circle.
  assert (Hshape : has_shape 6 6 target)
    by (split; [reflexivity | repeat constructor]).
  pose proof (add_to_image_frame circle target 6 6 Hshape) as H.
  cbv zeta in H. destruct H as (_ & _ & H).
  split.
  - apply (proj1 (H 3%nat 3%nat)). reflexivity.
  - apply (proj2 (H 0%nat 0%nat)). discriminate.
Defined.

(** C10: painting a shape onto a buffer that it was already painted onto
    changes nothing: two calls of [add_to_image] give the buffer that one
    call gives. *)
Theorem add_to_image_idempotent (self : Shape) (target : grid Colour) :
  add_to_image self (add_to_image self target) = add_to_image self target.
Proof.
  unfold add_to_image.
  rewrite shape2_assign_mask by apply has_shape_mask.
  apply assign_mask_twice.
Qed.

(** The end-to-end scenario: a circle painted at the first placement of
    the sample run onto an orange canvas of side 100. *)
Lemma sample_picture :
  let target := repeat (repeat ORANGE 100) 100 in
  let picture := add_to_image (Circle (mkPosition 21 48 5) BLUE) target in
  create_canvas (mkPosition 100 0 0) ORANGE = Returned target /\
  cell picture 58 15 = Some BLUE /\
  cell picture 0 0 = Some ORANGE /\
  cell picture 48 5 = Some ORANGE.
Proof.
  vm_compute. repeat split.
Qed.

(** * Further properties of the layout *)

(** ** Errors of [get_positions] *)




(** ** What [random_position] draws *)


(** ** The canvas and the placements *)

(** X3: the canvas placement, which [add] leaves out of its check,
    intersects every other placement of the result, in both
    directions. *)
Theorem canvas_intersects_all
        (tape : nat -> Z) (canvas_size : Z) (fuel : nat) (count : Z) (k : nat)
        (placements : list Position) (k' : nat) (i : nat) (p : Position) :
  get_positions tape canvas_size fuel count k = Returned (placements, k') ->
  (0 < i)%nat -> nth_error placements i = Some p ->
  intersects (mkPosition canvas_size 0 0) p = true /\
  intersects p (mkPosition canvas_size 0 0) = true.
Proof.
  intros H Hi Hp.
  apply get_positions_returned in H as (added & -> & _ & Hall & _).
  destruct i as [|i]; [lia|]. simpl in Hp.
  rewrite Forall_forall in Hall.
  assert (Hd : drawn canvas_size p) by (eapply Hall, nth_error_In, Hp).
  destruct (drawn_nonneg canvas_size p Hd) as [Hc Hs].
  destruct Hd as (_ & _ & Hx & Hy).
  rewrite (intersects_swap p).
  assert (H : intersects (mkPosition canvas_size 0 0) p = true); [|now split].
  apply intersects_true; simpl.
  rewrite !_1d_intersect_true. lia.
Qed.

Lemma canvas_intersects_all_witness :
  intersects (mkPosition 100 0 0) (mkPosition 20 78 34) = true /\
  intersects (mkPosition 20 78 34) (mkPosition 100 0 0) = true.
Proof.
  apply (canvas_intersects_all sample_tape 100 50 3 0%nat sample_placements 9%nat 2%nat).
  - vm_compute. reflexivity.
  - lia.
  - reflexivity.
Defined.

(** ** Boundary cases of the intersection test *)

(** X4: a placement intersects itself exactly when its size is not
    negative. *)
Theorem intersects_self (p : Position) :
  intersects p p = true <-> 0 <= size p.
Proof.
  rewrite intersects_true, !_1d_intersect_true. lia.
Qed.

(** X5: boxes that only touch intersect: when the box of [q] starts
    on the line on which the box of [p] ends, on the x axis or on the y
    axis, and the projections on the other axis overlap, [intersects] is
    true. *)
Theorem intersects_touching (p q : Position) :
  0 <= size p -> 0 <= size q ->
  (x_position q = x_position p + size p /\
   closed_overlap (y_position p) (size p) (y_position q) (size q)) \/
  (y_position q = y_position p + size p /\
   closed_overlap (x_position p) (size p) (x_position q) (size q)) ->
  intersects p q = true.
Proof.
  intros Hp Hq H. apply intersects_true.
  rewrite !_1d_intersect_true. unfold closed_overlap in H. lia.
Qed.

Lemma intersects_touching_witness :
  intersects (mkPosition 10 0 0) (mkPosition 5 10 0) = true.
Proof.
  apply (intersects_touching (mkPosition 10 0 0) (mkPosition 5 10 0)).
  - simpl. lia.
  - simpl. lia.
  - left. unfold closed_overlap. simpl. lia.
Defined.

(** ** One more placement *)

Lemma add_times_snoc (tape : nat -> Z) (canvas_size : Z) (fuel n : nat)
      (positions : list Position) (k : nat) :
  add_times tape canvas_size fuel (S n) positions k
  = bind (add_times tape canvas_size fuel n positions)
         (add tape canvas_size fuel) k.
Proof.
  revert positions k. induction n as [|n IH]; intros positions k.
  - cbn [add_times]. unfold bind, ret.
    now destruct (add tape canvas_size fuel positions k) as [[ps k1]| |].
  - change (add_times tape canvas_size fuel (S (S n)) positions k)
      with (bind (add tape canvas_size fuel positions)
                 (add_times tape canvas_size fuel (S n)) k).
    cbn [add_times]. unfold bind at 1 3 4.
    destruct (add tape canvas_size fuel positions k) as [[ps k1]| |];
      try reflexivity.
    apply IH.
Qed.

(** X6: with the same state of the generator, the run for [count + 1]
    placements is the run for [count] placements followed by one more
    call of [add]: asking for one more placement keeps the earlier
    ones. *)
Theorem get_positions_extends
        (tape : nat -> Z) (canvas_size : Z) (fuel : nat) (count : Z) (k : nat) :
  0 <= count ->
  get_positions tape canvas_size fuel (count + 1) k
  = (placements <- get_positions tape canvas_size fuel count ;;
     add tape canvas_size fuel placements) k.
Proof.
  intros Hcount. unfold get_positions.
  replace (Z.to_nat (count + 1)) with (S (Z.to_nat count)) by lia.
  apply add_times_snoc.
Qed.

Lemma get_positions_extends_witness :
  get_positions sample_tape 100 50 (2 + 1) 0%nat
  = (placements <- get_positions sample_tape 100 50 2 ;;
     add sample_tape 100 50 placements) 0%nat.
Proof.
  apply (get_positions_extends sample_tape 100 50 2 0%nat). lia.
Defined.

(** * Further properties of the masks *)

(** Two arrays of one shape with the same cells are the same array. *)
Lemma grid_ext {A : Type} (h w : nat) (a b : grid A) :
  has_shape h w a -> has_shape h w b ->
  (forall i j : nat, cell a i j = cell b i j) -> a = b.
Proof.
  rewrite !has_shape_rows. intros [Ha Wa] [Hb Wb] Hcell.
  apply nth_error_ext. intros i.
  destruct (nth_error a i) as [ra|] eqn:Era;
    destruct (nth_error b i) as [rb|] eqn:Erb.
  - f_equal. apply nth_error_ext. intros j.
    specialize (Hcell i j). unfold cell in Hcell. now rewrite Era, Erb in Hcell.
  - apply nth_error_None in Erb.
    assert (nth_error a i <> None) as Hsome by congruence.
    apply nth_error_Some in Hsome. lia.
  - apply nth_error_None in Era.
    assert (nth_error b i <> None) as Hsome by congruence.
    apply nth_error_Some in Hsome. lia.
  - reflexivity.
Qed.

Lemma in_slice_clipped (start len : Z) (n i : nat) :
  0 <= start -> 0 <= len -> (i < n)%nat ->
  in_slice start (start + len) n i
  = (start <=? Z.of_nat i) && (Z.of_nat i <? start + len).
Proof.
  intros Hs Hl Hi. unfold in_slice, clamp.
  destruct (Z.ltb_spec start 0); [lia|].
  destruct (Z.ltb_spec (start + len) 0); [lia|].
  apply eq_true_iff_eq.
  rewrite !andb_true_iff, !Z.leb_le, !Z.ltb_lt. lia.
Qed.

Lemma Square_mask_clipped_aux (p : Position) (c : Colour) (h w i j : nat) :
  0 <= size p -> 0 <= x_position p -> 0 <= y_position p ->
  (i < h)%nat -> (j < w)%nat ->
  cell (_mask (Square p c) (h, w) (x_position p, y_position p)) i j
  = Some ((x_position p <=? Z.of_nat i) && (Z.of_nat i <? x_position p + size p)
          && ((y_position p <=? Z.of_nat j)
              && (Z.of_nat j <? y_position p + size p))).
Proof.
  intros Hs Hx Hy Hi Hj. simpl _mask.
  rewrite cell_Square_mask by assumption. simpl fst; simpl snd.
  now rewrite !in_slice_clipped by assumption.
Qed.

(** X7: a square whose corner is on the canvas but whose box sticks out
    beyond the far edges gets the part of its box that is on the canvas:
    the mask is true exactly at the pixels of the canvas that lie in the
    box, and nothing is raised. *)
Theorem Square_mask_clipped (p : Position) (c : Colour) (h w i j : nat) :
  0 <= size p -> 0 <= x_position p -> 0 <= y_position p ->
  (i < h)%nat -> (j < w)%nat ->
  cell (_mask (Square p c) (h, w) (x_position p, y_position p)) i j
  = Some ((x_position p <=? Z.of_nat i) && (Z.of_nat i <? x_position p + size p)
          && ((y_position p <=? Z.of_nat j)
              && (Z.of_nat j <? y_position p + size p))).
Proof.
  apply Square_mask_clipped_aux.
Qed.

Lemma Square_mask_clipped_witness :
  cell (_mask (Square (mkPosition 4 3 3) ORANGE) (5%nat, 5%nat) (3, 3)) 4 4 = Some true.
Proof.
  apply (Square_mask_clipped (mkPosition 4 3 3) ORANGE 5 5 4 4); simpl; lia.
Defined.

Lemma in_slice_wraps (start len : Z) (n i : nat) :
  - Z.of_nat n <= start -> start + len < 0 -> 0 <= len ->
  in_slice start (start + len) n i
  = in_slice (start + Z.of_nat n) (start + Z.of_nat n + len) n i.
Proof.
  intros Hlo Hhi Hlen. unfold in_slice, clamp.
  destruct (Z.ltb_spec start 0); [|lia].
  destruct (Z.ltb_spec (start + len) 0); [|lia].
  destruct (Z.ltb_spec (start + Z.of_nat n) 0); [lia|].
  destruct (Z.ltb_spec (start + Z.of_nat n + len) 0); [lia|].
  f_equal; f_equal; lia.
Qed.

(** X8: a negative corner is not clipped, it counts from the far edge as
    a negative index does: a square whose box lies at [x] with
    [-H <= x] and [x + size < 0] has the mask of the same square at
    [x + H], for H the height of the canvas, and likewise on the other
    axis. *)
Theorem Square_mask_wraps (s x y : Z) (c : Colour) (h w : nat) :
  0 <= s ->
  (- Z.of_nat h <= x /\ x + s < 0 ->
   _mask (Square (mkPosition s x y) c) (h, w) (x, y)
   = _mask (Square (mkPosition s (x + Z.of_nat h) y) c) (h, w) (x + Z.of_nat h, y)) /\
  (- Z.of_nat w <= y /\ y + s < 0 ->
   _mask (Square (mkPosition s x y) c) (h, w) (x, y)
   = _mask (Square (mkPosition s x (y + Z.of_nat w)) c) (h, w) (x, y + Z.of_nat w)).
Proof.
  intros Hs. split; intros [Hlo Hhi]; simpl _mask.
  - apply (grid_ext h w); try apply (has_shape_Square_mask _ (h, w)).
    intros i j.
    destruct (Nat.lt_ge_cases i h) as [Hi|Hi];
      [destruct (Nat.lt_ge_cases j w) as [Hj|Hj]|].
    + rewrite !cell_Square_mask by assumption. simpl.
      now rewrite in_slice_wraps by assumption.
    + rewrite !(has_shape_cell_outside h w); auto;
        apply (has_shape_Square_mask _ (h, w)).
    + rewrite !(has_shape_cell_outside h w); auto;
        apply (has_shape_Square_mask _ (h, w)).
  - apply (grid_ext h w); try apply (has_shape_Square_mask _ (h, w)).
    intros i j.
    destruct (Nat.lt_ge_cases i h) as [Hi|Hi];
      [destruct (Nat.lt_ge_cases j w) as [Hj|Hj]|].
    + rewrite !cell_Square_mask by assumption. simpl.
      now rewrite (in_slice_wraps y) by assumption.
    + rewrite !(has_shape_cell_outside h w); auto;
        apply (has_shape_Square_mask _ (h, w)).
    + rewrite !(has_shape_cell_outside h w); auto;
        apply (has_shape_Square_mask _ (h, w)).
Qed.

Lemma Square_mask_wraps_witness :
  _mask (Square (mkPosition 2 (-3) 1) ORANGE) (6%nat, 6%nat) (-3, 1)
  = _mask (Square (mkPosition 2 3 1) ORANGE) (6%nat, 6%nat) (3, 1).
Proof.
  apply (proj1 (Square_mask_wraps 2 (-3) 1 ORANGE 6 6 ltac:(lia))). simpl. lia.
Defined.

(** ** The circle inside its box *)

Lemma inside_disc (a b r : Q) :
  (0 <= r)%Q -> (a ^ 2 + b ^ 2 < r ^ 2)%Q ->
  (- r < a /\ a < r /\ - r < b /\ b < r)%Q.
Proof.
  intros Hr H.
  assert (Ha : (a ^ 2 < r ^ 2)%Q) by nra.
  assert (Hb : (b ^ 2 < r ^ 2)%Q) by nra.
  repeat split; nra.
Qed.

Lemma half_offset (v lo len : Z) :
  (- (inject_Z len / 2) < inject_Z v - (inject_Z lo + inject_Z len / 2))%Q ->
  (inject_Z v - (inject_Z lo + inject_Z len / 2) < inject_Z len / 2)%Q ->
  lo < v < lo + len.
Proof.
  assert (E : (inject_Z len == 2 * (inject_Z len / 2))%Q) by field.
  revert E. generalize (inject_Z len / 2)%Q. intros r E H1 H2.
  rewrite !Zlt_Qlt, inject_Z_plus. split; lra.
Qed.

Lemma Circle_mask_inside_box_aux (p : Position) (c : Colour) (h w i j : nat) :
  0 <= size p ->
  cell (_mask (Circle p c) (h, w) (x_position p, y_position p)) i j = Some true ->
  x_position p < Z.of_nat i < x_position p + size p /\
  y_position p < Z.of_nat j < y_position p + size p.
Proof.
  intros Hs Hcell.
  assert (Hshape : has_shape h w (_mask (Circle p c) (h, w)
                                        (x_position p, y_position p)))
    by apply (has_shape_mask (Circle p c) (h, w)).
  destruct (Nat.lt_ge_cases i h) as [Hi|Hi];
    [|rewrite (has_shape_cell_outside h w) in Hcell by auto; discriminate].
  destruct (Nat.lt_ge_cases j w) as [Hj|Hj];
    [|rewrite (has_shape_cell_outside h w) in Hcell by auto; discriminate].
  simpl _mask in Hcell. rewrite cell_Circle_mask in Hcell by assumption.
  injection Hcell as Hlt. apply Qltb_lt in Hlt. simpl fst in Hlt; simpl snd in Hlt.
  assert (Hr : (0 <= inject_Z (size p) / 2)%Q).
  { assert (H0 : (0 <= inject_Z (size p))%Q) by (change 0%Q with (inject_Z 0); rewrite <- Zle_Qle; exact Hs).
    assert (E : (inject_Z (size p) == 2 * (inject_Z (size p) / 2))%Q) by field.
    revert E. generalize (inject_Z (size p) / 2)%Q. intros r E. lra. }
  destruct (inside_disc _ _ _ Hr Hlt) as (A1 & A2 & B1 & B2).
  split; eapply half_offset; eassumption.
Qed.



(** A pixel of the mask of a shape, square or circle, lies in the box
    of the placement when the corner and the size are not negative. *)
Lemma mask_in_box (self : Shape) (h w i j : nat) :
  0 <= size (_position self) ->
  0 <= x_position (_position self) -> 0 <= y_position (_position self) ->
  cell (_mask self (h, w)
          (x_position (_position self), y_position (_position self))) i j
  = Some true ->
  x_position (_position self) <= Z.of_nat i
    < x_position (_position self) + size (_position self) /\
  y_position (_position self) <= Z.of_nat j
    < y_position (_position self) + size (_position self).
Proof.
  intros Hs Hx Hy Hcell. destruct self as [p c|p c]; simpl _position in *.
  - assert (Hshape : has_shape h w (_mask (Square p c) (h, w)
                                          (x_position p, y_position p)))
      by apply (has_shape_mask (Square p c) (h, w)).
    destruct (Nat.lt_ge_cases i h) as [Hi|Hi];
      [|rewrite (has_shape_cell_outside h w) in Hcell by auto; discriminate].
    destruct (Nat.lt_ge_cases j w) as [Hj|Hj];
      [|rewrite (has_shape_cell_outside h w) in Hcell by auto; discriminate].
    simpl _mask in Hcell. rewrite cell_Square_mask in Hcell by assumption.
    simpl fst in Hcell; simpl snd in Hcell.
    rewrite !in_slice_clipped in Hcell by assumption.
    injection Hcell as Hcell.
    rewrite !andb_true_iff, !Z.leb_le, !Z.ltb_lt in Hcell. lia.
  - pose proof (Circle_mask_inside_box_aux p c h w i j Hs Hcell). lia.
Qed.

(** * Further properties of painting *)

Lemma assign_mask_commute {A : Type} (h w : nat) (target : grid A)
      (m1 m2 : grid bool) (v1 v2 : A) :
  has_shape h w target -> has_shape h w m1 -> has_shape h w m2 ->
  (forall i j, cell m1 i j = Some true -> cell m2 i j = Some true -> False) ->
  assign_mask (assign_mask target m1 v1) m2 v2
  = assign_mask (assign_mask target m2 v2) m1 v1.
Proof.
  intros Ht H1 H2 Hdisj.
  apply (grid_ext h w); try (repeat apply has_shape_assign_mask; assumption).
  intros i j. rewrite !cell_assign_mask.
  specialize (Hdisj i j).
  destruct (cell target i j) as [old|]; [|reflexivity].
  destruct (cell m1 i j) as [[|]|], (cell m2 i j) as [[|]|]; try reflexivity.
  now destruct Hdisj.
Qed.

Lemma assign_mask_cover {A : Type} (h w : nat) (target : grid A)
      (m1 m2 : grid bool) (v1 v2 : A) :
  has_shape h w target -> has_shape h w m1 -> has_shape h w m2 ->
  (forall i j, cell m1 i j = Some true -> cell m2 i j = Some true) ->
  assign_mask (assign_mask target m1 v1) m2 v2 = assign_mask target m2 v2.
Proof.
  intros Ht H1 H2 Hsub.
  apply (grid_ext h w); try (repeat apply has_shape_assign_mask; assumption).
  intros i j. rewrite !cell_assign_mask.
  destruct (Nat.lt_ge_cases i h) as [Hi|Hi];
    [destruct (Nat.lt_ge_cases j w) as [Hj|Hj]|].
  - destruct (has_shape_cell h w target i j Ht Hi Hj) as [old ->].
    destruct (has_shape_cell h w m1 i j H1 Hi Hj) as [b1 E1].
    destruct (has_shape_cell h w m2 i j H2 Hi Hj) as [b2 E2].
    specialize (Hsub i j). rewrite E1, E2 in *.
    destruct b1, b2; try reflexivity.
    specialize (Hsub eq_refl). discriminate.
  - now rewrite (has_shape_cell_outside h w target) by auto.
  - now rewrite (has_shape_cell_outside h w target) by auto.
Qed.

Lemma assign_mask_none {A : Type} (h w : nat) (target : grid A)
      (mask : grid bool) (v : A) :
  has_shape h w target -> has_shape h w mask ->
  (forall i j, cell mask i j <> Some true) ->
  assign_mask target mask v = target.
Proof.
  intros Ht Hm Hnone.
  apply (grid_ext h w); try (repeat apply has_shape_assign_mask; assumption).
  intros i j. rewrite cell_assign_mask.
  destruct (Nat.lt_ge_cases i h) as [Hi|Hi];
    [destruct (Nat.lt_ge_cases j w) as [Hj|Hj]|].
  - destruct (has_shape_cell h w target i j Ht Hi Hj) as [old ->].
    destruct (has_shape_cell h w mask i j Hm Hi Hj) as [b E].
    specialize (Hnone i j). rewrite E in *.
    destruct b; [congruence|reflexivity].
  - now rewrite (has_shape_cell_outside h w target) by auto.
  - now rewrite (has_shape_cell_outside h w target) by auto.
Qed.

(** The mask that [add_to_image] computes for a buffer of shape
    [(h, w)]. *)
Lemma add_to_image_shaped (self : Shape) (target : grid Colour) (h w : nat) :
  has_shape h w target ->
  add_to_image self target
  = assign_mask target
      (_mask self (h, w)
         (x_position (_position self), y_position (_position self)))
      (_colour self).
Proof.
  intros Ht. unfold add_to_image.
  destruct (has_shape_shape2 h w target Ht) as [-> | ->]; reflexivity.
Qed.

Lemma has_shape_add_to_image (self : Shape) (target : grid Colour) (h w : nat) :
  has_shape h w target -> has_shape h w (add_to_image self target).
Proof.
  intros Ht. rewrite (add_to_image_shaped self target h w Ht).
  apply has_shape_assign_mask; [exact Ht|].
  apply (has_shape_mask self (h, w)).
Qed.

(** X10: two shapes whose placements do not intersect, with corners and
    sizes that are not negative, can be painted in either order: the
    buffer is the same. *)
Theorem add_to_image_commute (s1 s2 : Shape) (target : grid Colour) (h w : nat) :
  has_shape h w target ->
  0 <= size (_position s1) ->
  0 <= x_position (_position s1) -> 0 <= y_position (_position s1) ->
  0 <= size (_position s2) ->
  0 <= x_position (_position s2) -> 0 <= y_position (_position s2) ->
  intersects (_position s1) (_position s2) = false ->
  add_to_image s1 (add_to_image s2 target)
  = add_to_image s2 (add_to_image s1 target).
Proof.
  intros Ht S1 X1 Y1 S2 X2 Y2 Hapart.
  rewrite (add_to_image_shaped s1 _ h w (has_shape_add_to_image s2 _ h w Ht)).
  rewrite (add_to_image_shaped s2 _ h w (has_shape_add_to_image s1 _ h w Ht)).
  rewrite (add_to_image_shaped s1 _ h w Ht), (add_to_image_shaped s2 _ h w Ht).
  symmetry.
  apply (assign_mask_commute h w); try exact Ht;
    try apply (has_shape_mask _ (h, w)).
  intros i j H1 H2.
  apply mask_in_box in H1; try assumption.
  apply mask_in_box in H2; try assumption.
  assert (Hover : intersects (_position s1) (_position s2) = true).
  { apply intersects_overlap_2d; try assumption. unfold closed_overlap. lia. }
  congruence.
Qed.

Lemma add_to_image_commute_witness :
  let target := repeat (repeat ORANGE 8) 8 in
  let circle := Circle (mkPosition 3 0 0) BLUE in
  let square := Square (mkPosition 2 5 4) PINK in
  add_to_image circle (add_to_image square target)
  = add_to_image square (add_to_image circle target).
Proof.
  intros target circle square.
  apply (add_to_image_commute circle square target 8 8);
    try (simpl; lia); try reflexivity.
  split; [reflexivity | repeat constructor].
Defined.

(** X11: a square painted over a shape of the same placement, square or
    circle, leaves nothing of it: the buffer is the one that the square
    alone gives. *)
Theorem add_to_image_square_covers
        (self : Shape) (c : Colour) (target : grid Colour) (h w : nat) :
  has_shape h w target ->
  0 <= size (_position self) ->
  0 <= x_position (_position self) -> 0 <= y_position (_position self) ->
  add_to_image (Square (_position self) c) (add_to_image self target)
  = add_to_image (Square (_position self) c) target.
Proof.
  intros Ht Hs Hx Hy.
  rewrite (add_to_image_shaped _ _ h w (has_shape_add_to_image self _ h w Ht)).
  rewrite (add_to_image_shaped self _ h w Ht), (add_to_image_shaped _ _ h w Ht).
  apply (assign_mask_cover h w); try exact Ht;
    try apply (has_shape_mask _ (h, w)).
  intros i j Hcell. simpl _position.
  assert (Hshape : has_shape h w
            (_mask self (h, w)
               (x_position (_position self), y_position (_position self))))
    by apply (has_shape_mask self (h, w)).
  destruct (Nat.lt_ge_cases i h) as [Hi|Hi];
    [|rewrite (has_shape_cell_outside h w) in Hcell by auto; discriminate].
  destruct (Nat.lt_ge_cases j w) as [Hj|Hj];
    [|rewrite (has_shape_cell_outside h w) in Hcell by auto; discriminate].
  apply mask_in_box in Hcell; try assumption.
  simpl _mask. rewrite cell_Square_mask by assumption.
  simpl fst; simpl snd. rewrite !in_slice_clipped by assumption.
  f_equal. rewrite !andb_true_iff, !Z.leb_le, !Z.ltb_lt. lia.
Qed.

Lemma add_to_image_square_covers_witness :
  let target := repeat (repeat ORANGE 8) 8 in
  let circle := Circle (mkPosition 5 1 2) BLUE in
  add_to_image (Square (mkPosition 5 1 2) PINK) (add_to_image circle target)
  = add_to_image (Square (mkPosition 5 1 2) PINK) target.
Proof.
  intros target circle.
  apply (add_to_image_square_covers circle PINK target 8 8);
    try (simpl; lia).
  split; [reflexivity | repeat constructor].
Defined.

Lemma in_slice_empty (start : Z) (n i : nat) : in_slice start (start + 0) n i = false.
Proof.
  unfold in_slice. rewrite Z.add_0_r.
  apply not_true_iff_false. rewrite andb_true_iff, Z.leb_le, Z.ltb_lt. lia.
Qed.

(** X12: a shape of size 0 paints nothing, wherever it is placed:
    [add_to_image] gives the buffer back as it was. *)
Theorem add_to_image_size_0 (self : Shape) (target : grid Colour) (h w : nat) :
  has_shape h w target -> size (_position self) = 0 ->
  add_to_image self target = target.
Proof.
  intros Ht Hs. rewrite (add_to_image_shaped self target h w Ht).
  apply (assign_mask_none h w); [exact Ht | apply (has_shape_mask self (h, w)) |].
  intros i j Hcell.
  assert (Hshape : has_shape h w
            (_mask self (h, w)
               (x_position (_position self), y_position (_position self))))
    by apply (has_shape_mask self (h, w)).
  destruct (Nat.lt_ge_cases i h) as [Hi|Hi];
    [|rewrite (has_shape_cell_outside h w) in Hcell by auto; discriminate].
  destruct (Nat.lt_ge_cases j w) as [Hj|Hj];
    [|rewrite (has_shape_cell_outside h w) in Hcell by auto; discriminate].
  destruct self as [p c|p c]; simpl _position in *; simpl _mask in Hcell.
  - rewrite cell_Square_mask in Hcell by assumption.
    rewrite Hs, in_slice_empty in Hcell. discriminate.
  - rewrite cell_Circle_mask in Hcell by assumption.
    injection Hcell as Hlt. apply Qltb_lt in Hlt. rewrite Hs in Hlt.
    simpl fst in Hlt; simpl snd in Hlt.
    assert (E : (inject_Z 0 / 2 == 0)%Q) by reflexivity.
    revert E Hlt. generalize (inject_Z 0 / 2)%Q.
    generalize (inject_Z (Z.of_nat i)), (inject_Z (Z.of_nat j)).
    generalize (inject_Z (x_position p)), (inject_Z (y_position p)).
    intros x y a b r E Hlt.
    assert (E2 : (r ^ 2 == 0)%Q) by (rewrite E; reflexivity).
    rewrite E2 in Hlt.
    set (u := (a - (x + r))%Q) in Hlt. set (v := (b - (y + r))%Q) in Hlt.
    clearbody u v. nra.
Qed.

Lemma add_to_image_size_0_witness :
  add_to_image (Circle (mkPosition 0 3 3) BLUE) (repeat (repeat ORANGE 8) 8)
  = repeat (repeat ORANGE 8) 8.
Proof.
  apply (add_to_image_size_0 (Circle (mkPosition 0 3 3) BLUE) _ 8 8).
  - split; [reflexivity | repeat constructor].
  - reflexivity.
Defined.

(** ** The canvas *)

Lemma cell_repeat {A : Type} (v : A) (h w i j : nat) :
  (i < h)%nat -> (j < w)%nat -> cell (repeat (repeat v w) h) i j = Some v.
Proof.
  intros Hi Hj. unfold cell.
  rewrite nth_error_repeat by exact Hi. now apply nth_error_repeat.
Qed.

Lemma has_shape_repeat {A : Type} (v : A) (h w : nat) :
  has_shape h w (repeat (repeat v w) h).
Proof.
  split; [apply repeat_length|].
  apply Forall_forall. intros row Hrow.
  apply repeat_spec in Hrow. subst. apply repeat_length.
Qed.

(** X13: [create_canvas] raises [ValueError] for a negative size, and
    for a size [n >= 0] it returns an image of [n] by [n] pixels, each of
    the colour of the square. *)
Theorem create_canvas_uniform (p : Position) (c : Colour) :
  (size p < 0 -> create_canvas p c = Raised ValueError) /\
  (0 <= size p ->
   exists canvas : grid Colour,
     create_canvas p c = Returned canvas /\
     has_shape (Z.to_nat (size p)) (Z.to_nat (size p)) canvas /\
     forall i j : nat,
       Z.of_nat i < size p -> Z.of_nat j < size p ->
       cell canvas i j = Some c).
Proof.
  unfold create_canvas. split; intros Hs.
  - destruct (Z.ltb_spec (size p) 0); [reflexivity|lia].
  - destruct (Z.ltb_spec (size p) 0); [lia|]. cbv zeta.
    eexists. split; [reflexivity|]. split.
    + apply has_shape_map, has_shape_repeat.
    + intros i j Hi Hj. rewrite cell_map, cell_repeat by lia. reflexivity.
Qed.

Lemma create_canvas_uniform_witness :
  exists canvas : grid Colour,
    create_canvas (mkPosition 3 0 0) ORANGE = Returned canvas /\
    has_shape 3 3 canvas /\
    forall i j : nat,
      Z.of_nat i < 3 -> Z.of_nat j < 3 -> cell canvas i j = Some ORANGE.
Proof.
  apply (proj2 (create_canvas_uniform (mkPosition 3 0 0) ORANGE)).
  simpl. lia.
Defined.

(** X14: painting the square of the canvas placement, of size [n] at
    the corner (0, 0), over any buffer of [n] by [n] pixels gives the
    image that [create_canvas] returns. *)
Theorem add_to_image_canvas (n : Z) (c : Colour) (target : grid Colour) :
  0 <= n -> has_shape (Z.to_nat n) (Z.to_nat n) target ->
  Returned (add_to_image (Square (mkPosition n 0 0) c) target)
  = create_canvas (mkPosition n 0 0) c.
Proof.
  intros Hn Ht. unfold create_canvas. simpl size.
  destruct (Z.ltb_spec n 0); [lia|]. cbv zeta. f_equal.
  set (m := Z.to_nat n) in *.
  apply (grid_ext m m).
  - now apply has_shape_add_to_image.
  - apply has_shape_map, has_shape_repeat.
  - intros i j.
    rewrite (add_to_image_shaped _ _ m m Ht), cell_assign_mask.
    destruct (Nat.lt_ge_cases i m) as [Hi|Hi];
      [destruct (Nat.lt_ge_cases j m) as [Hj|Hj]|].
    + destruct (has_shape_cell m m target i j Ht Hi Hj) as [old ->].
      cbn [_position _colour].
      rewrite (Square_mask_clipped_aux (mkPosition n 0 0) c m m i j)
        by (simpl; lia).
      rewrite cell_map, cell_repeat by assumption. simpl.
      destruct (Z.ltb_spec (Z.of_nat i) n); [|lia].
      destruct (Z.ltb_spec (Z.of_nat j) n); [|lia].
      destruct (Z.leb_spec 0 (Z.of_nat i)); [|lia].
      destruct (Z.leb_spec 0 (Z.of_nat j)); [|lia].
      reflexivity.
    + rewrite (has_shape_cell_outside m m target) by auto.
      symmetry. apply (has_shape_cell_outside m m); auto.
      apply has_shape_map, has_shape_repeat.
    + rewrite (has_shape_cell_outside m m target) by auto.
      symmetry. apply (has_shape_cell_outside m m); auto.
      apply has_shape_map, has_shape_repeat.
Qed.

Lemma add_to_image_canvas_witness :
  Returned (add_to_image (Square (mkPosition 3 0 0) ORANGE) (repeat (repeat BLUE 3) 3))
  = create_canvas (mkPosition 3 0 0) ORANGE.
Proof.
  apply (add_to_image_canvas 3 ORANGE (repeat (repeat BLUE 3) 3)).
  - lia.
  - split; [reflexivity | repeat constructor].
Defined.

(** ** The area of a square *)

Lemma imap_from_repeat {A B : Type} (f : nat -> A -> B) (a : A) (n k : nat) :
  imap_from k f (repeat a n) = map (fun i => f i a) (seq k n).
Proof.
  revert k. induction n as [|n IH]; intros k; simpl; [reflexivity|].
  now rewrite IH.
Qed.

(** The number of indices below [n] between [a], included, and [b]. *)
Lemma count_between (a b n : nat) :
  (a <= b)%nat ->
  length (filter (fun j => (a <=? j)%nat && (j <? b)%nat) (seq 0 n))
  = (Nat.min b n - Nat.min a n)%nat.
Proof.
  intros Hab. induction n as [|n IH]; [now rewrite !Nat.min_0_r|].
  rewrite seq_S, filter_app, length_app, IH. simpl.
  destruct (Nat.leb_spec a n); destruct (Nat.ltb_spec n b); simpl; lia.
Qed.

Lemma list_sum_indicator (f : nat -> bool) (c : nat) (l : list nat) :
  list_sum (map (fun i => if f i then c else 0%nat) l)
  = (length (filter f l) * c)%nat.
Proof.
  induction l as [|i l IH]; simpl; [reflexivity|].
  rewrite IH. destruct (f i); simpl; lia.
Qed.

Lemma count_row (f : nat -> bool) (a : bool) (w : nat) :
  length (filter (fun b : bool => b) (map (fun j => a && f j) (seq 0 w)))
  = if a then length (filter f (seq 0 w)) else 0%nat.
Proof.
  destruct a; simpl.
  - induction (seq 0 w) as [|j l IH]; simpl; [reflexivity|].
    destruct (f j); simpl; now rewrite IH.
  - induction (seq 0 w) as [|j l IH]; simpl; [reflexivity|exact IH].
Qed.

Lemma count_in_slice (start len : Z) (n : nat) :
  0 <= start -> 0 <= len ->
  Z.of_nat (length (filter (in_slice start (start + len) n) (seq 0 n)))
  = Z.min (start + len) (Z.of_nat n) - Z.min start (Z.of_nat n).
Proof.
  intros Hs Hl.
  rewrite (filter_ext_in _
             (fun j => (Z.to_nat start <=? j)%nat
                       && (j <? Z.to_nat (start + len))%nat)).
  - rewrite count_between by lia. lia.
  - intros j Hj. apply in_seq in Hj.
    rewrite in_slice_clipped by lia.
    apply eq_true_iff_eq.
    rewrite !andb_true_iff, Z.leb_le, Z.ltb_lt, Nat.leb_le, Nat.ltb_lt. lia.
Qed.

Lemma count_true_Square_mask (p : Position) (h w : nat) (location : Z * Z) :
  count_true (Square_mask p (h, w) location)
  = (length (filter (in_slice (fst location) (fst location + size p) h) (seq 0 h))
     * length (filter (in_slice (snd location) (snd location + size p) w) (seq 0 w)))%nat.
Proof.
  unfold count_true, Square_mask, assign_slice, imap, np_zeros; cbv zeta.
  simpl fst; simpl snd.
  rewrite imap_from_repeat, map_map.
  rewrite <- list_sum_indicator. f_equal.
  apply map_ext. intros i.
  rewrite imap_from_repeat.
  rewrite <- count_row. do 2 f_equal.
  apply map_ext. intros j. rewrite !repeat_length.
  now destruct (in_slice _ _ h i), (in_slice _ _ w j).
Qed.

(** X15: the mask of a square with a corner and a size that are not
    negative has as many true pixels as its box has on the canvas; for a
    box that the canvas contains that is [size * size]. *)
Theorem Square_mask_area (p : Position) (c : Colour) (h w : nat) :
  0 <= size p -> 0 <= x_position p -> 0 <= y_position p ->
  let mask := _mask (Square p c) (h, w) (x_position p, y_position p) in
  Z.of_nat (count_true mask)
  = (Z.min (x_position p + size p) (Z.of_nat h) - Z.min (x_position p) (Z.of_nat h))
    * (Z.min (y_position p + size p) (Z.of_nat w) - Z.min (y_position p) (Z.of_nat w)) /\
  (x_position p + size p <= Z.of_nat h ->
   y_position p + size p <= Z.of_nat w ->
   Z.of_nat (count_true mask) = size p * size p).
Proof.
  intros Hs Hx Hy mask.
  assert (Harea :
    Z.of_nat (count_true mask)
    = (Z.min (x_position p + size p) (Z.of_nat h) - Z.min (x_position p) (Z.of_nat h))
      * (Z.min (y_position p + size p) (Z.of_nat w) - Z.min (y_position p) (Z.of_nat w))).
  { unfold mask. simpl _mask. rewrite count_true_Square_mask.
    simpl fst; simpl snd.
    now rewrite Nat2Z.inj_mul, !count_in_slice by assumption. }
  split; [exact Harea|].
  intros Hh Hw. rewrite Harea. nia.
Qed.

Lemma Square_mask_area_witness :
  Z.of_nat (count_true (_mask (Square (mkPosition 4 3 3) ORANGE) (5%nat, 5%nat) (3, 3)))
  = (Z.min (3 + 4) 5 - Z.min 3 5) * (Z.min (3 + 4) 5 - Z.min 3 5).
Proof.
  apply (Square_mask_area (mkPosition 4 3 3) ORANGE 5 5); simpl; lia.
Defined.

(** * How many placements fit *)

















Lemma get_positions_boxes_apart_witness :
  ~ (closed_overlap 48 21 78 20 /\ closed_overlap 5 21 34 20).
Proof.
  apply (get_positions_boxes_apart sample_tape 100 50 3 0%nat sample_placements
           9%nat 1%nat 2%nat (mkPosition 21 48 5) (mkPosition 20 78 34)).
  - vm_compute. reflexivity.
  - lia.
  - lia.
  - discriminate.
  - reflexivity.
  - reflexivity.
Defined.
